(** * Server bootstrap of the object-storage server: credentials, disk
      quorum, backend selection and listen-address resolution.

    The credential manager is embedded from [cmd/credential.go].  Go strings
    are byte strings ([string]), byte slices are [list byte], a nil-able
    slice is an [option], the package's [error] values are an inductive
    type and a Go error result is an [option error] ([None] is [nil]).
    Code that draws random bytes, writes to the log or ends the process is
    written in a small state monad whose results say how the call ended. *)

From Stdlib Require Import ZArith NArith List Strings.String Strings.Ascii Strings.Byte Bool Lia.
From stdpp Require Import base option list.

Import ListNotations.
Local Open Scope string_scope.
Local Open Scope list_scope.
Local Open Scope nat_scope.

(** ** Go values *)

(** [[]byte(s)] and [string(b)]. *)
Definition bytes_of (s : string) : list byte := list_byte_of_string s.
Definition string_of (b : list byte) : string := string_of_list_byte b.

#[global] Instance byte_eq_decision : EqDecision byte := Byte.byte_eq_dec.

(** [len(s)] of a string counts its bytes. *)
Definition len (s : string) : nat := String.length s.

(** [time.Time]: seconds and nanoseconds since the zero instant
    (January 1, year 1, 00:00 UTC); the zero value is that instant. *)
Record Time : Type := mkTime { sec : Z; nsec : Z }.

Definition zeroTime : Time := mkTime 0 0.

Definition IsZero (t : Time) : bool := (sec t =? 0)%Z && (nsec t =? 0)%Z.

(** The error values of the package, and errors handed up by a library. *)
Inductive error : Type :=
| errInvalidAccessKeyLength
| errInvalidSecretKeyLength
| errLibrary (msg : string).

Definition Error (e : error) : string :=
  match e with
  | errInvalidAccessKeyLength =>
      "Invalid access key, access key should be 5 to 20 characters in length"
  | errInvalidSecretKeyLength =>
      "Invalid secret key, secret key should be 8 to 40 characters in length"
  | errLibrary msg => msg
  end.

Definition is_nil {A} (e : option A) : bool :=
  match e with None => true | Some _ => false end.

(** ** golang.org/x/crypto/bcrypt

    The library is outside the repository: its two entry points are the
    methods of a class.  [GenerateFromPassword] salts the hash with random
    bytes of its own, which it draws from a state the class keeps abstract. *)
Module bcrypt.

Definition DefaultCost : Z := 10.

Class Lib : Type := {
  salts : Type;
  GenerateFromPassword :
    list byte -> Z -> salts -> (option (list byte) * option error) * salts;
  CompareHashAndPassword : option (list byte) -> list byte -> option error
}.

(** What the credential code expects of a working bcrypt: hashing at the
    default cost succeeds, a hash verifies the password it was made
    from, and whether a password verifies against a hash does not
    depend on the salt the hash was made with. *)
Class Laws (L : Lib) : Prop := {
  generate_ok : forall p st,
    snd (fst (GenerateFromPassword p DefaultCost st)) = None;
  compare_own : forall p c st,
    snd (fst (GenerateFromPassword p c st)) = None ->
    CompareHashAndPassword (fst (fst (GenerateFromPassword p c st))) p = None;
  compare_salt : forall p q c st1 st2,
    snd (fst (GenerateFromPassword p c st1)) = None ->
    snd (fst (GenerateFromPassword p c st2)) = None ->
    is_nil (CompareHashAndPassword (fst (fst (GenerateFromPassword p c st1))) q)
    = is_nil (CompareHashAndPassword (fst (fst (GenerateFromPassword p c st2))) q)
}.

End bcrypt.

(** ** cmd/credential.go: constants and length checks *)

Definition accessKeyMinLen : nat := 5.
Definition accessKeyMaxLen : nat := 20.
Definition secretKeyMinLen : nat := 8.
Definition secretKeyMaxLenAmazon : nat := 40.
Definition alphaNumericTable : string := "0123456789ABCDEFGHIJKLMNOPQRSTUVWXYZ".
Definition alphaNumericTableLen : N := N.of_nat (len alphaNumericTable) mod 256.

(** The character [getNewCredentialWithExpiry] puts for a random byte. *)
Definition alphaNumeric (x : byte) : byte :=
  default x00 (bytes_of alphaNumericTable
                 !! N.to_nat (Byte.to_N x mod alphaNumericTableLen)).

(** [var secretKeyMaxLen = secretKeyMaxLenAmazon]: a package variable that
    nothing in the package assigns; it keeps its initial value. *)
Definition secretKeyMaxLen : nat := secretKeyMaxLenAmazon.

Definition isAccessKeyValid (accessKey : string) : bool :=
  (accessKeyMinLen <=? len accessKey) && (len accessKey <=? accessKeyMaxLen).

Definition isSecretKeyValid (secretKey : string) : bool :=
  (secretKeyMinLen <=? len secretKey) && (len secretKey <=? secretKeyMaxLen).

Record credential : Type := mkCredential {
  AccessKey : string;
  SecretKey : string;
  Expiry : Time;
  secretKeyHash : option (list byte)
}.

(** [credential{}] *)
Definition credential_zero : credential := mkCredential "" "" zeroTime None.

Definition set_secretKeyHash (cred : credential) (h : option (list byte)) : credential :=
  mkCredential (AccessKey cred) (SecretKey cred) (Expiry cred) h.

Definition set_Expiry (cred : credential) (t : Time) : credential :=
  mkCredential (AccessKey cred) (SecretKey cred) t (secretKeyHash cred).

Definition IsValid (cred : credential) : bool :=
  isAccessKeyValid (AccessKey cred) && isSecretKeyValid (SecretKey cred).

(** ** encoding/base64, [StdEncoding]

    The standard alphabet with [=] padding (RFC 4648), three source bytes to
    four characters, written with the shifts and masks of the encoder. *)
Module base64.

Definition encodeStd : string :=
  "ABCDEFGHIJKLMNOPQRSTUVWXYZabcdefghijklmnopqrstuvwxyz0123456789+/".

Definition StdPadding : byte := x3d.

Definition enc (v : N) : byte :=
  default x00 (bytes_of encodeStd !! N.to_nat (N.land v 63)).

Fixpoint encode (src : list byte) : list byte :=
  match src with
  | [] => []
  | [a] =>
      let val := N.shiftl (Byte.to_N a) 16 in
      [enc (N.shiftr val 18); enc (N.shiftr val 12); StdPadding; StdPadding]
  | [a; b] =>
      let val := N.lor (N.shiftl (Byte.to_N a) 16) (N.shiftl (Byte.to_N b) 8) in
      [enc (N.shiftr val 18); enc (N.shiftr val 12); enc (N.shiftr val 6); StdPadding]
  | a :: b :: c :: rest =>
      let val := N.lor (N.lor (N.shiftl (Byte.to_N a) 16) (N.shiftl (Byte.to_N b) 8))
                       (Byte.to_N c) in
      enc (N.shiftr val 18) :: enc (N.shiftr val 12) :: enc (N.shiftr val 6)
        :: enc val :: encode rest
  end.

Definition EncodeToString (src : list byte) : string := string_of (encode src).

End base64.

(** How a call ends: it returns, the process exits ([fatalIf]) or the
    run-time system panics (an index or a slice bound out of range). *)
Inductive outcome (A : Type) : Type :=
| Returned (a : A)
| Exited (msg : string)
| Panicked (msg : string).

Arguments Returned {A} a.
Arguments Exited {A} msg.
Arguments Panicked {A} msg.

(** ** The state the package's code runs in *)

Section Credentials.

Context {B : bcrypt.Lib}.

(** [timeSentinel] is declared in a file of the package that is not among
    the sources; the code below is read for every value of it. *)
Variable timeSentinel : Time.

(** [entropy] is what [crypto/rand] will still deliver before it fails,
    [hasher] is the library's own source of salts and [logged] is what has
    been written to the server's log, newest first. *)
Record State : Type := mkState {
  entropy : list byte;
  hasher : bcrypt.salts;
  logged : list string
}.

Definition M (A : Type) : Type := State -> outcome (A * State).

Definition ret {A} (a : A) : M A := fun s => Returned (a, s).

Definition bind {A C} (m : M A) (k : A -> M C) : M C :=
  fun s =>
    match m s with
    | Returned (a, s') => k a s'
    | Exited msg => Exited msg
    | Panicked msg => Panicked msg
    end.

Notation "x <- m ;; k" := (bind m (fun x => k))
  (at level 100, m at next level, right associativity).
Notation "m ;; k" := (bind m (fun _ => k))
  (at level 100, right associativity).

Definition panic {A} (msg : string) : M A := fun _ => Panicked msg.

(** [bcrypt.GenerateFromPassword], run on the library's part of the state. *)
Definition GenerateFromPassword (password : list byte) (cost : Z)
  : M (option (list byte) * option error) :=
  fun s =>
    let '(r, st) := bcrypt.GenerateFromPassword password cost (hasher s) in
    Returned (r, mkState (entropy s) st (logged s)).

(** [rand.Read(b)] fills [b] from the system's entropy; when the source
    fails before [b] is full, the bytes it did deliver are in [b] and the
    error is not nil. *)
Definition rand_Read (b : list byte) : M (list byte * option error) :=
  fun s =>
    let got := take (length b) (entropy s) in
    let b' := got ++ drop (length got) b in
    let err := if length got <? length b
               then Some (errLibrary "unexpected EOF") else None in
    Returned ((b', err), mkState (drop (length b) (entropy s)) (hasher s) (logged s)).

(** Modelled from the spec: [errorIf] and [fatalIf], the logging helpers of
    the package, are not among the sources.  Section 7 has authentication
    errors deny the request and never end the server, and errors during
    credential generation end it: [errorIf] writes the message to the log
    when the error is not nil, [fatalIf] does so and ends the process. *)
Definition errorIf (err : option error) (msg : string) : M unit :=
  fun s =>
    match err with
    | None => Returned (tt, s)
    | Some _ => Returned (tt, mkState (entropy s) (hasher s) (msg :: logged s))
    end.

Definition fatalIf (err : option error) (msg : string) : M unit :=
  fun s =>
    match err with
    | None => Returned (tt, s)
    | Some _ => Exited msg
    end.

(** ** cmd/credential.go: Equal *)

(** The body of [Equal], from the callee's side: [cred] and [ccred] are the
    callee's own copies (value receiver, value parameter).  Next to the
    result the body hands back its copy of [cred] as it is at the return,
    so that the assignment to [cred.secretKeyHash] can be seen. *)
Definition Equal_body (cred ccred : credential) : M (bool * credential) :=
  let compare (cred : credential) :=
    ret ((AccessKey cred =? AccessKey ccred)%string
         && is_nil (bcrypt.CompareHashAndPassword (secretKeyHash cred)
                      (bytes_of (SecretKey ccred))),
         cred) in
  if negb (IsValid ccred) then ret (false, cred)
  else
    match secretKeyHash cred with
    | None =>
        g <- GenerateFromPassword (bytes_of (SecretKey cred)) bcrypt.DefaultCost ;;
        let '(secretKeyHash, err) := g in
        match err with
        | Some _ =>
            errorIf err "Unable to generate hash of given password" ;;
            ret (false, cred)
        | None => compare (set_secretKeyHash cred secretKeyHash)
        end
    | Some _ => compare cred
    end.

(** [cred.Equal(ccred)] as the caller has it: the callee's copies are gone
    when it returns. *)
Definition Equal (cred ccred : credential) : M bool :=
  r <- Equal_body cred ccred ;; ret (fst r).

(** ** cmd/credential.go: createCredentialWithExpiry *)

Definition createCredentialWithExpiry (accessKey secretKey : string) (expiry : Time)
  : M (credential * option error) :=
  let cred := credential_zero in
  r <- (if negb (isAccessKeyValid accessKey) then
          ret (cred, Some errInvalidAccessKeyLength)
        else if negb (isSecretKeyValid secretKey) then
          ret (cred, Some errInvalidSecretKeyLength)
        else
          g <- GenerateFromPassword (bytes_of secretKey) bcrypt.DefaultCost ;;
          let '(secretKeyHash, err) := g in
          if is_nil err then
            ret (mkCredential accessKey secretKey (Expiry cred) secretKeyHash, err)
          else ret (cred, err)) ;;
  let '(cred, err) := r in
  let cred := if negb (IsZero expiry) then set_Expiry cred expiry else cred in
  ret (cred, err).

Definition createCredential (accessKey secretKey : string)
  : M (credential * option error) :=
  createCredentialWithExpiry accessKey secretKey timeSentinel.

(** ** cmd/credential.go: getNewCredentialWithExpiry *)

(** [make([]byte, n)] *)
Definition make (n : nat) : list byte := replicate n x00.

(** [b[i]], which panics out of range. *)
Definition index (b : list byte) (i : nat) : M byte :=
  match b !! i with
  | Some x => ret x
  | None => panic "index out of range"
  end.

(** [b[:n]] *)
Definition slice_to (b : list byte) (n : nat) : M (list byte) :=
  if n <=? length b then ret (take n b) else panic "slice bounds out of range".

(** [for i := 0; i < accessKeyMaxLen; i++ { keyBytes[i] = ... }], with
    [todo] turns of the loop left at index [i]. *)
Fixpoint alphaNumeric_loop (todo i : nat) (keyBytes : list byte) : M (list byte) :=
  match todo with
  | 0 => ret keyBytes
  | S todo' =>
      x <- index keyBytes i ;;
      c <- index (bytes_of alphaNumericTable)
                 (N.to_nat (Byte.to_N x mod alphaNumericTableLen)) ;;
      alphaNumeric_loop todo' (S i) (<[i := c]> keyBytes)
  end.

Definition getNewCredentialWithExpiry (expiry : Time) : M (credential * option error) :=
  let keyBytes := make accessKeyMaxLen in
  r <- rand_Read keyBytes ;;
  let '(keyBytes, err) := r in
  fatalIf err "Unable to generate access key." ;;
  keyBytes <- alphaNumeric_loop accessKeyMaxLen 0 keyBytes ;;
  let accessKey := string_of keyBytes in
  let keyBytes := make secretKeyMaxLen in
  r <- rand_Read keyBytes ;;
  let '(keyBytes, err) := r in
  if negb (is_nil err) then ret (credential_zero, err)
  else
    truncated <- slice_to (bytes_of (base64.EncodeToString keyBytes)) secretKeyMaxLen ;;
    let secretKey := string_of truncated in
    r <- createCredentialWithExpiry accessKey secretKey expiry ;;
    let '(cred, err) := r in
    if negb (is_nil err) then ret (credential_zero, err)
    else ret (cred, None).

Definition mustGetNewCredential : M credential :=
  r <- getNewCredentialWithExpiry timeSentinel ;;
  let '(cred, err) := r in
  fatalIf err "Unable to generate new credential." ;;
  ret cred.

(** The caller's side of [credA.Equal(credB)]: the caller's two variables
    are copied into the callee's receiver and parameter, and they are
    what they were when the call is over. *)
Record vars : Type := mkVars { credA : credential; credB : credential }.

Definition call_Equal (v : vars) : M (bool * vars) :=
  r <- Equal_body (credA v) (credB v) ;;
  ret (fst r, v).

End Credentials.

Arguments State B : clear implicits.

(** A stand-in for bcrypt on which the statements below can be run: the
    "hash" is a salt byte, taken from a counter, followed by the password.
    It is only there to evaluate the code; it is no password hash. *)
Module toy.

Definition salt_of (n : nat) : byte :=
  default x00 (Byte.of_N (N.of_nat n mod 256)).

Definition generate (p : list byte) (cost : Z) (n : nat)
  : (option (list byte) * option error) * nat :=
  ((Some (salt_of n :: p), None), S n).

Definition compare (h : option (list byte)) (p : list byte) : option error :=
  match h with
  | Some (_ :: q) =>
      if bool_decide (q = p) then None
      else Some (errLibrary "crypto/bcrypt: hashedPassword is not the hash of the given password")
  | _ => Some (errLibrary "crypto/bcrypt: hashedSecret too short to be a bcrypted password")
  end.

#[export] Instance lib : bcrypt.Lib :=
  {| bcrypt.salts := nat;
     bcrypt.GenerateFromPassword := generate;
     bcrypt.CompareHashAndPassword := compare |}.

Definition state0 (rnd : list byte) : State lib := mkState rnd 0 [].

End toy.

(** ** Disk-quorum validator *)

Inductive Scheme : Type := LocalPath | RemoteURL.

Record StorageEndpoint : Type := mkEndpoint {
  ep_scheme : Scheme;
  ep_host : string;
  ep_path : string
}.

(** The validator's errors: [InsufficientDisks], [TooManyDisks] and
    [UnevenDiskCount] of the specification are [errXLMinDisks],
    [errXLMaxDisks] and [errXLNumDisks] of the tests. *)
Inductive disk_error : Type := errXLMinDisks | errXLMaxDisks | errXLNumDisks.

Definition minErasureBlocks : nat := 6.
Definition maxErasureBlocks : nat := 16.

(** Modelled from the spec: [checkSufficientDisks] ([validateDiskSet] of
    section 4.3) is not among the sources, only its test is.  The three
    rules are tried in the order of section 4.3 and the first that fails
    gives the error; [None] is success. *)
Definition checkSufficientDisks (endpoints : list StorageEndpoint) : option disk_error :=
  if length endpoints <? minErasureBlocks then Some errXLMinDisks
  else if maxErasureBlocks <? length endpoints then Some errXLMaxDisks
  else if negb (length endpoints mod 2 =? 0) then Some errXLNumDisks
  else None.

(** ** Backend selector *)

(** The engine built: the single-node filesystem engine on one endpoint, or
    the erasure-coded engine on all endpoints. *)
Inductive ObjectLayer : Type :=
| fsObjects (endpoint : StorageEndpoint)
| xlObjects (endpoints : list StorageEndpoint).

(** The terminal states of the selector's state machine. *)
Inductive selected : Type :=
| Ready (obj : ObjectLayer)
| Failed (err : disk_error).

(** Modelled from the spec: [newObjectLayer] ([newStorageEngine] of section
    4.5) is not among the sources, only its test is.  One endpoint gives
    the filesystem engine; more than one endpoint are handed to the
    validator, whose error is passed on and whose success gives the
    erasure-coded engine.  Section 4.5 has no transition for a topology
    without endpoints: the result is [None] there.  The validator is an
    argument, so that what the selector does with it can be stated. *)
Definition newObjectLayerWith
    (validate : list StorageEndpoint -> option disk_error)
    (endpoints : list StorageEndpoint) : option selected :=
  match endpoints with
  | [] => None
  | [endpoint] => Some (Ready (fsObjects endpoint))
  | _ =>
      match validate endpoints with
      | Some err => Some (Failed err)
      | None => Some (Ready (xlObjects endpoints))
      end
  end.

Definition newObjectLayer : list StorageEndpoint -> option selected :=
  newObjectLayerWith checkSufficientDisks.

(** ** Address resolver *)

Inductive addr_error : Type := errEmptyPort | errMissingPort | errInvalidPort.

(** An address, or a part of one, without colon. *)
Definition noColon (s : string) : Prop :=
  forall c, In c (list_ascii_of_string s) -> c <> ":"%char.

(** Host and port part of [host:port], split at the last colon; [None]
    when the address has no colon. *)
Fixpoint SplitHostPort (addr : string) : option (string * string) :=
  match addr with
  | EmptyString => None
  | String c rest =>
      match SplitHostPort rest with
      | Some (host, port) => Some (String c host, port)
      | None => if (c =? ":")%char then Some (EmptyString, rest) else None
      end
  end.

Definition isDigit (c : ascii) : bool :=
  (48 <=? nat_of_ascii c) && (nat_of_ascii c <=? 57).

Fixpoint allDigits (s : string) : bool :=
  match s with
  | EmptyString => true
  | String c rest => isDigit c && allDigits rest
  end.

(** The number a string of decimal digits stands for, given the number
    [acc] read so far. *)
Fixpoint decimal (acc : N) (s : string) : N :=
  match s with
  | EmptyString => acc
  | String c rest => decimal (10 * acc + (N_of_ascii c - 48)) rest
  end.

(** Modelled from the spec: [getHostPort], the splitting and port checks of
    [resolveListenAddress] (section 4.1), is not among the sources, only
    its test is.  An address without separator has a missing port; a port
    that is empty or the literal [0] is an empty port; a port that is not
    a decimal integer is invalid, and so is one outside [1, 65535], the
    range section 3 asks of a port. *)
Definition getHostPort (address : string) : (string * string) + addr_error :=
  match SplitHostPort address with
  | None => inr errMissingPort
  | Some (host, port) =>
      if (port =? "")%string || (port =? "0")%string then inr errEmptyPort
      else if negb (allDigits port) then inr errInvalidPort
      else if (1 <=? decimal 0 port)%N && (decimal 0 port <=? 65535)%N
           then inl (host, port)
           else inr errInvalidPort
  end.

(** Modelled from the spec: the enumeration of the local interfaces is the
    operating system's; [interfaces] are the addresses it reports apart
    from the loopback, and the loopback address stands in when there are
    none (section 4.1). *)
Definition getInterfaceIPs (interfaces : list string) : list string :=
  match interfaces with
  | [] => ["127.0.0.1"]
  | _ => interfaces
  end.

(** Modelled from the spec: [getListenIPs] ([resolveListenAddress] of
    section 4.1) is not among the sources, only its test is.  An empty host
    stands for all local interfaces, another host for itself. *)
Definition getListenIPs (interfaces : list string) (serverAddr : string)
  : (list string * string) + addr_error :=
  match getHostPort serverAddr with
  | inr err => inr err
  | inl (host, port) =>
      if (host =? "")%string then inl (getInterfaceIPs interfaces, port)
      else inl ([host], port)
  end.

(** ** Notions the further properties are stated with *)

(** The 256 bytes. *)
Definition all_bytes : list byte :=
  map (fun n => default x00 (Byte.of_N (N.of_nat n))) (seq 0 256).

(** The keys that [getNewCredentialWithExpiry] makes of the entropy, as
    the code computes them: twenty bytes through the alphabet, and the
    first forty characters of the encoding of the next forty bytes. *)
Definition accessKey_of (rnd : list byte) : string :=
  string_of (map alphaNumeric (take 20 rnd)).

Definition secretKey_of (rnd : list byte) : string :=
  string_of (take 40 (base64.encode (take 40 (drop 20 rnd)))).

(** ** Sample inputs *)

Definition minio : credential :=
  mkCredential "minio" "minio123" zeroTime None.

Definition minio_hashed : credential :=
  mkCredential "minio" "minio123" zeroTime
    (Some (toy.salt_of 0 :: bytes_of "minio123")).

Definition sixty_bytes : list byte :=
  bytes_of "abcdefghijklmnopqrstuvwxyzABCDEFGHIJKLMNOPQRSTUVWXYZ01234567".

Definition disks (n : nat) : list StorageEndpoint :=
  map (fun i => mkEndpoint LocalPath "" (String "/" (String (ascii_of_nat (65 + i)) "")))
      (seq 0 n).

(** * Properties *)

(** ** Lengths and validity *)

Lemma isAccessKeyValid_iff accessKey :
  isAccessKeyValid accessKey = true <-> 5 <= len accessKey <= 20.
Proof.
  unfold isAccessKeyValid, accessKeyMinLen, accessKeyMaxLen.
  rewrite andb_true_iff, !Nat.leb_le. tauto.
Qed.

Lemma isSecretKeyValid_iff secretKey :
  isSecretKeyValid secretKey = true <-> 8 <= len secretKey <= 40.
Proof.
  unfold isSecretKeyValid, secretKeyMinLen, secretKeyMaxLen, secretKeyMaxLenAmazon.
  rewrite andb_true_iff, !Nat.leb_le. tauto.
Qed.

Lemma IsValid_iff cred :
  IsValid cred = true <->
  5 <= len (AccessKey cred) <= 20 /\ 8 <= len (SecretKey cred) <= 40.
Proof.
  unfold IsValid.
  rewrite andb_true_iff, isAccessKeyValid_iff, isSecretKeyValid_iff. tauto.
Qed.

Lemma is_nil_true {A} (e : option A) : is_nil e = true <-> e = None.
Proof. destruct e; simpl; split; congruence. Qed.

Lemma len_string_of (b : list byte) : len (string_of b) = length b.
Proof.
  unfold len, string_of, string_of_list_byte.
  induction b as [|x b IH]; simpl; [reflexivity | now rewrite IH].
Qed.

Lemma bytes_of_string_of (b : list byte) : bytes_of (string_of b) = b.
Proof. apply list_byte_of_string_of_list_byte. Qed.


(** ** The alphabet of access keys and the base64 encoder *)

Lemma alphaNumericTable_lookup (x : byte) :
  bytes_of alphaNumericTable !! N.to_nat (Byte.to_N x mod alphaNumericTableLen)
  = Some (alphaNumeric x).
Proof.
  unfold alphaNumeric.
  assert (N.to_nat (Byte.to_N x mod alphaNumericTableLen)
          < length (bytes_of alphaNumericTable)) as Hlt.
  { change (length (bytes_of alphaNumericTable)) with 36.
    change alphaNumericTableLen with 36%N.
    pose proof (N.mod_upper_bound (Byte.to_N x) 36). lia. }
  apply lookup_lt_is_Some_2 in Hlt. destruct Hlt as [c Hc]. now rewrite Hc.
Qed.

Lemma alphaNumeric_in_table (x : byte) :
  In (alphaNumeric x) (bytes_of alphaNumericTable).
Proof.
  apply list_elem_of_In. eapply list_elem_of_lookup_2, alphaNumericTable_lookup.
Qed.

Lemma base64_encode_length_aux (l : list byte) :
  length (base64.encode l) = 4 * ((length l + 2) / 3) /\
  (forall a, length (base64.encode (a :: l)) = 4 * ((S (length l) + 2) / 3)) /\
  (forall a b, length (base64.encode (a :: b :: l)) = 4 * ((S (S (length l)) + 2) / 3)).
Proof.
  induction l as [|c l (IH0 & IH1 & IH2)].
  - repeat split.
  - split; [apply IH1|]. split; [intros a; apply IH2|].
    intros a b. change (base64.encode (a :: b :: c :: l)) with
      (base64.enc (N.shiftr (N.lor (N.lor (N.shiftl (Byte.to_N a) 16)
                                          (N.shiftl (Byte.to_N b) 8)) (Byte.to_N c)) 18)
       :: base64.enc (N.shiftr (N.lor (N.lor (N.shiftl (Byte.to_N a) 16)
                                          (N.shiftl (Byte.to_N b) 8)) (Byte.to_N c)) 12)
       :: base64.enc (N.shiftr (N.lor (N.lor (N.shiftl (Byte.to_N a) 16)
                                          (N.shiftl (Byte.to_N b) 8)) (Byte.to_N c)) 6)
       :: base64.enc (N.lor (N.lor (N.shiftl (Byte.to_N a) 16)
                                          (N.shiftl (Byte.to_N b) 8)) (Byte.to_N c))
       :: base64.encode l).
    cbn [length]. rewrite IH0.
    replace (S (S (S (length l))) + 2) with ((length l + 2) + 1 * 3) by lia.
    rewrite Nat.div_add by lia. lia.
Qed.

(** The encoder writes four characters for every three bytes, the last
    group padded. *)
Lemma base64_encode_length (l : list byte) :
  length (base64.encode l) = 4 * ((length l + 2) / 3).
Proof. apply base64_encode_length_aux. Qed.

Section CredentialFacts.

Context {B : bcrypt.Lib}.

(** ** Equal *)

(** What [Equal_body] comes to, branch by branch. *)
Lemma Equal_body_invalid cred ccred s :
  IsValid ccred = false ->
  Equal_body cred ccred s = Returned ((false, cred), s).
Proof. intros H. unfold Equal_body. now rewrite H. Qed.

Lemma Equal_body_cached cred ccred h s :
  IsValid ccred = true ->
  secretKeyHash cred = Some h ->
  Equal_body cred ccred s =
  Returned (((AccessKey cred =? AccessKey ccred)%string
             && is_nil (bcrypt.CompareHashAndPassword (Some h) (bytes_of (SecretKey ccred))),
             cred), s).
Proof.
  intros Hv Hh. unfold Equal_body. rewrite Hv. simpl.
  unfold ret. now rewrite Hh.
Qed.

Lemma Equal_body_fresh cred ccred s h st :
  IsValid ccred = true ->
  secretKeyHash cred = None ->
  bcrypt.GenerateFromPassword (bytes_of (SecretKey cred)) bcrypt.DefaultCost (hasher s)
    = ((h, None), st) ->
  Equal_body cred ccred s =
  Returned (((AccessKey cred =? AccessKey ccred)%string
             && is_nil (bcrypt.CompareHashAndPassword h (bytes_of (SecretKey ccred))),
             set_secretKeyHash cred h),
            mkState (entropy s) st (logged s)).
Proof.
  intros Hv Hh Hg. unfold Equal_body. rewrite Hv. simpl.
  unfold bind, ret, GenerateFromPassword. now rewrite Hh, Hg.
Qed.

Lemma Equal_body_failed cred ccred s h e st :
  IsValid ccred = true ->
  secretKeyHash cred = None ->
  bcrypt.GenerateFromPassword (bytes_of (SecretKey cred)) bcrypt.DefaultCost (hasher s)
    = ((h, Some e), st) ->
  Equal_body cred ccred s =
  Returned ((false, cred),
            mkState (entropy s) st
              ("Unable to generate hash of given password" :: logged s)).
Proof.
  intros Hv Hh Hg. unfold Equal_body. rewrite Hv. simpl.
  unfold bind, ret, GenerateFromPassword, errorIf. now rewrite Hh, Hg.
Qed.

Lemma Equal_of_body cred ccred s r s' :
  Equal_body cred ccred s = Returned (r, s') ->
  Equal cred ccred s = Returned (fst r, s').
Proof. intros H. unfold Equal, bind, ret. now rewrite H. Qed.

(** [Equal] always returns. *)
Lemma Equal_returns cred ccred s :
  exists r s', Equal_body cred ccred s = Returned (r, s').
Proof.
  destruct (IsValid ccred) eqn:Hv.
  - destruct (secretKeyHash cred) as [h|] eqn:Hh.
    + eexists _, _. eapply Equal_body_cached; eauto.
    + destruct (bcrypt.GenerateFromPassword (bytes_of (SecretKey cred))
                  bcrypt.DefaultCost (hasher s)) as [[h [e|]] st] eqn:Hg.
      * eexists _, _. eapply Equal_body_failed; eauto.
      * eexists _, _. eapply Equal_body_fresh; eauto.
  - eexists _, _. now apply Equal_body_invalid.
Qed.

(** C1. [credA.Equal(credB)] returns, and it returns true exactly when
    [credB] is valid (access key of 5 to 20 bytes, secret key of 8 to 40
    bytes), the two access keys are equal, and [credB]'s secret key
    verifies against [credA]'s hash: the stored one when there is one, the
    one computed during the call otherwise.  So it returns false for every
    [credB] that is not valid, whatever its access key. *)
Theorem Equal_true_iff (credA credB : credential) (s : State B) :
  exists r s',
    Equal credA credB s = Returned (r, s') /\
    (r = true <->
       (5 <= len (AccessKey credB) <= 20 /\ 8 <= len (SecretKey credB) <= 40) /\
       AccessKey credA = AccessKey credB /\
       exists h,
         (secretKeyHash credA = h /\ h <> None \/
          secretKeyHash credA = None /\
          exists st, bcrypt.GenerateFromPassword (bytes_of (SecretKey credA))
                       bcrypt.DefaultCost (hasher s) = ((h, None), st)) /\
         bcrypt.CompareHashAndPassword h (bytes_of (SecretKey credB)) = None) /\
    (~ (5 <= len (AccessKey credB) <= 20 /\ 8 <= len (SecretKey credB) <= 40) ->
     r = false).
Proof.
  destruct (IsValid credB) eqn:Hv.
  - pose proof (proj1 (IsValid_iff credB) Hv) as Hlen.
    destruct (secretKeyHash credA) as [h0|] eqn:Hh.
    + eexists _, _. split; [apply Equal_of_body; eapply Equal_body_cached; eauto|].
      simpl. split; [|tauto].
      rewrite andb_true_iff, String.eqb_eq, is_nil_true. split.
      * intros [Hak Hc]. repeat split; try tauto.
        exists (Some h0). split; [left; split; congruence | exact Hc].
      * intros (_ & Hak & h & [[<- _]|[Hn _]] & Hc); [tauto | discriminate].
    + destruct (bcrypt.GenerateFromPassword (bytes_of (SecretKey credA))
                  bcrypt.DefaultCost (hasher s)) as [[h [e|]] st] eqn:Hg.
      * eexists _, _. split; [apply Equal_of_body; eapply Equal_body_failed; eauto|].
        simpl. split; [|tauto]. split; [discriminate|].
        intros (_ & _ & h' & [[<- Hne]|[_ [st' Hst]]] & _); congruence.
      * eexists _, _. split; [apply Equal_of_body; eapply Equal_body_fresh; eauto|].
        simpl. split; [|tauto].
        rewrite andb_true_iff, String.eqb_eq, is_nil_true. split.
        -- intros [Hak Hc]. repeat split; try tauto.
           exists h. split; [right; split; [reflexivity | now exists st] | exact Hc].
        -- intros (_ & Hak & h' & [[<- Hne]|[_ [st' Hst]]] & Hc); [congruence|].
           split; [exact Hak|]. congruence.
  - eexists _, _. split; [apply Equal_of_body; now apply Equal_body_invalid|].
    simpl. split; [|reflexivity].
    split; [discriminate|]. intros (Hlen & _).
    apply IsValid_iff in Hlen. congruence.
Qed.

(** ** createCredentialWithExpiry *)

Lemma create_bad_access_key accessKey secretKey expiry s :
  isAccessKeyValid accessKey = false ->
  createCredentialWithExpiry accessKey secretKey expiry s =
  Returned ((if negb (IsZero expiry) then set_Expiry credential_zero expiry
             else credential_zero,
             Some errInvalidAccessKeyLength), s).
Proof. intros H. unfold createCredentialWithExpiry. now rewrite H. Qed.

Lemma create_bad_secret_key accessKey secretKey expiry s :
  isAccessKeyValid accessKey = true ->
  isSecretKeyValid secretKey = false ->
  createCredentialWithExpiry accessKey secretKey expiry s =
  Returned ((if negb (IsZero expiry) then set_Expiry credential_zero expiry
             else credential_zero,
             Some errInvalidSecretKeyLength), s).
Proof. intros H1 H2. unfold createCredentialWithExpiry. now rewrite H1, H2. Qed.

Lemma create_hashed accessKey secretKey expiry s h st :
  isAccessKeyValid accessKey = true ->
  isSecretKeyValid secretKey = true ->
  bcrypt.GenerateFromPassword (bytes_of secretKey) bcrypt.DefaultCost (hasher s)
    = ((h, None), st) ->
  createCredentialWithExpiry accessKey secretKey expiry s =
  Returned ((mkCredential accessKey secretKey
               (if negb (IsZero expiry) then expiry else zeroTime) h,
             None),
            mkState (entropy s) st (logged s)).
Proof.
  intros H1 H2 Hg. unfold createCredentialWithExpiry. rewrite H1, H2. simpl.
  unfold bind, ret, GenerateFromPassword. rewrite Hg. simpl.
  now destruct (IsZero expiry).
Qed.

Lemma create_hash_failed accessKey secretKey expiry s h e st :
  isAccessKeyValid accessKey = true ->
  isSecretKeyValid secretKey = true ->
  bcrypt.GenerateFromPassword (bytes_of secretKey) bcrypt.DefaultCost (hasher s)
    = ((h, Some e), st) ->
  createCredentialWithExpiry accessKey secretKey expiry s =
  Returned ((if negb (IsZero expiry) then set_Expiry credential_zero expiry
             else credential_zero,
             Some e),
            mkState (entropy s) st (logged s)).
Proof.
  intros H1 H2 Hg. unfold createCredentialWithExpiry. rewrite H1, H2. simpl.
  unfold bind, ret, GenerateFromPassword. now rewrite Hg.
Qed.

(** The fields a failed [createCredentialWithExpiry] leaves empty. *)
Lemma failed_credential_empty expiry :
  let cred := if negb (IsZero expiry) then set_Expiry credential_zero expiry
              else credential_zero in
  AccessKey cred = "" /\ SecretKey cred = "" /\ secretKeyHash cred = None.
Proof. simpl. now destruct (IsZero expiry). Qed.

(** A credential that [createCredentialWithExpiry] returns without error
    has keys of valid length and the hash of its own secret key. *)
Lemma create_returns_own_hash accessKey secretKey expiry s cred s' :
  createCredentialWithExpiry accessKey secretKey expiry s = Returned ((cred, None), s') ->
  IsValid cred = true /\
  bcrypt.GenerateFromPassword (bytes_of (SecretKey cred)) bcrypt.DefaultCost (hasher s)
    = ((secretKeyHash cred, None), hasher s').
Proof.
  intros H.
  destruct (isAccessKeyValid accessKey) eqn:H1;
    [|rewrite create_bad_access_key in H by assumption; discriminate].
  destruct (isSecretKeyValid secretKey) eqn:H2;
    [|rewrite create_bad_secret_key in H by assumption; discriminate].
  destruct (bcrypt.GenerateFromPassword (bytes_of secretKey) bcrypt.DefaultCost (hasher s))
    as [[h [e|]] st] eqn:Hg.
  - erewrite create_hash_failed in H by eauto. discriminate.
  - erewrite create_hashed in H by eauto.
    injection H as <- <-. simpl. unfold IsValid. simpl.
    rewrite H1, H2. split; [reflexivity | exact Hg].
Qed.


Lemma create_returns_keys accessKey secretKey expiry s cred s' :
  createCredentialWithExpiry accessKey secretKey expiry s = Returned ((cred, None), s') ->
  AccessKey cred = accessKey /\ SecretKey cred = secretKey /\ IsValid cred = true.
Proof.
  intros H.
  destruct (isAccessKeyValid accessKey) eqn:H1;
    [|rewrite create_bad_access_key in H by assumption; discriminate].
  destruct (isSecretKeyValid secretKey) eqn:H2;
    [|rewrite create_bad_secret_key in H by assumption; discriminate].
  destruct (bcrypt.GenerateFromPassword (bytes_of secretKey) bcrypt.DefaultCost (hasher s))
    as [[h [e|]] st] eqn:Hg.
  - erewrite create_hash_failed in H by eauto. discriminate.
  - erewrite create_hashed in H by eauto.
    injection H as <- <-. unfold IsValid. simpl. now rewrite H1, H2.
Qed.

(** ** getNewCredentialWithExpiry *)

Lemma rand_Read_returns (b : list byte) (s : State B) :
  exists b' err,
    rand_Read b s = Returned ((b', err), mkState (drop (length b) (entropy s))
                                           (hasher s) (logged s)) /\
    length b' = length b /\
    (err = None <-> length b <= length (entropy s)).
Proof.
  unfold rand_Read. eexists _, _. split; [reflexivity|].
  rewrite length_app, length_drop, !length_take. split; [lia|].
  destruct (Nat.ltb_spec (length b `min` length (entropy s)) (length b));
    split; intros; try discriminate; try reflexivity; lia.
Qed.

(** The loop replaces every byte from index [i] on by its character. *)
Lemma alphaNumeric_loop_returns (todo : nat) :
  forall (i : nat) (keyBytes : list byte) (s : State B),
    i + todo = length keyBytes ->
    alphaNumeric_loop todo i keyBytes s
    = Returned (take i keyBytes ++ map alphaNumeric (drop i keyBytes), s).
Proof.
  induction todo as [|todo IH]; intros i keyBytes s Hlen.
  - simpl. unfold ret. rewrite take_ge, drop_ge by lia.
    now rewrite app_nil_r.
  - assert (i < length keyBytes) as Hi by lia.
    destruct (lookup_lt_is_Some_2 keyBytes i Hi) as [x Hx].
    cbn [alphaNumeric_loop]. unfold bind at 1. unfold index at 1. rewrite Hx.
    unfold ret at 1. unfold bind at 1. unfold index at 1.
    rewrite alphaNumericTable_lookup. unfold ret at 1.
    rewrite IH by (rewrite length_insert; lia).
    rewrite take_insert_lt, drop_insert_lt by lia.
    rewrite (take_S_r _ _ _ Hx), (drop_S _ _ _ Hx).
    rewrite insert_app_r_alt by (rewrite length_take; lia).
    rewrite length_take, Nat.min_l, Nat.sub_diag by lia.
    cbn. now rewrite <- app_assoc.
Qed.

(** The two keys of a credential that [getNewCredentialWithExpiry] returns
    without error: twenty random bytes put through the alphabet, and the
    first forty characters of the encoding of forty random bytes. *)
Lemma getNewCredentialWithExpiry_keys expiry (s : State B) cred s' :
  getNewCredentialWithExpiry expiry s = Returned ((cred, None), s') ->
  exists random1 random2,
    length random1 = 20 /\ length random2 = 40 /\
    AccessKey cred = string_of (map alphaNumeric random1) /\
    SecretKey cred = string_of (take 40 (base64.encode random2)) /\
    IsValid cred = true.
Proof.
  unfold getNewCredentialWithExpiry.
  destruct (rand_Read_returns (make accessKeyMaxLen) s) as (b1 & e1 & R1 & L1 & _).
  unfold bind at 1. rewrite R1.
  destruct e1 as [e1|]; [discriminate|].
  unfold bind at 1. unfold fatalIf at 1.
  unfold bind at 1.
  unfold make in L1. rewrite length_replicate in L1.
  rewrite (alphaNumeric_loop_returns accessKeyMaxLen 0 b1) by (rewrite L1; reflexivity).
  rewrite take_0, drop_0, app_nil_l.
  unfold bind at 1.
  match goal with |- context [rand_Read ?b ?t] =>
    destruct (rand_Read_returns b t) as (b2 & e2 & R2 & L2 & _) end.
  rewrite R2.
  unfold make in L2. rewrite length_replicate in L2.
  destruct e2 as [e2|]; [discriminate|]. cbn [is_nil negb].
  unfold base64.EncodeToString. rewrite bytes_of_string_of.
  unfold bind at 1. unfold slice_to at 1.
  assert (secretKeyMaxLen <= length (base64.encode b2)) as Hle.
  { rewrite base64_encode_length, L2. vm_compute. lia. }
  apply Nat.leb_le in Hle. rewrite Hle. unfold ret at 1.
  unfold bind at 1.
  match goal with |- context [createCredentialWithExpiry ?a ?k ?e ?t] =>
    destruct (createCredentialWithExpiry a k e t) as [[[c err] t']| |] eqn:Hc end;
    try discriminate.
  destruct err as [err|]; [discriminate|]. cbn [is_nil negb]. unfold ret.
  intros [= <- <-].
  pose proof (create_returns_keys _ _ _ _ _ _ Hc) as (Ha & Hs & Hv).
  exists b1, b2. repeat split; try assumption.
Qed.

Lemma mustGetNewCredential_inv timeSentinel (s : State B) cred s' :
  mustGetNewCredential timeSentinel s = Returned (cred, s') ->
  getNewCredentialWithExpiry timeSentinel s = Returned ((cred, None), s').
Proof.
  unfold mustGetNewCredential, bind.
  destruct (getNewCredentialWithExpiry timeSentinel s) as [[[c [e|]] t]| |];
    simpl; try discriminate.
  unfold ret. now intros [= <- <-].
Qed.

(** C6. A credential returned by [getNewCredentialWithExpiry] without
    error, for any expiry and so for none, or returned by
    [mustGetNewCredential], is valid, its access key has 20 characters,
    all of them of [alphaNumericTable], and its secret key has 40. *)
Theorem generated_credential_shape
    (timeSentinel expiry : Time) (s : State B) (cred : credential) (s' : State B) :
  getNewCredentialWithExpiry expiry s = Returned ((cred, None), s') \/
  mustGetNewCredential timeSentinel s = Returned (cred, s') ->
  IsValid cred = true /\
  len (AccessKey cred) = 20 /\
  Forall (fun c => In c (bytes_of alphaNumericTable)) (bytes_of (AccessKey cred)) /\
  len (SecretKey cred) = 40.
Proof.
  intros H.
  assert (exists e, getNewCredentialWithExpiry e s = Returned ((cred, None), s'))
    as [e He].
  { destruct H as [H|H]; [now exists expiry|].
    exists timeSentinel. now apply mustGetNewCredential_inv. }
  apply getNewCredentialWithExpiry_keys in He
    as (random1 & random2 & L1 & L2 & -> & -> & Hv).
  split; [exact Hv|].
  rewrite !len_string_of, bytes_of_string_of, length_map, L1.
  split; [reflexivity|]. split.
  - apply List.Forall_forall. intros c Hc. apply List.in_map_iff in Hc as (x & <- & _).
    apply alphaNumeric_in_table.
  - rewrite length_take, base64_encode_length, L2. reflexivity.
Qed.
Section WorkingBcrypt.

Context {BL : bcrypt.Laws B}.

Lemma generate_no_error p st h e st' :
  bcrypt.GenerateFromPassword p bcrypt.DefaultCost st = ((h, e), st') -> e = None.
Proof.
  intros Hg. pose proof (bcrypt.generate_ok p st) as H.
  now rewrite Hg in H.
Qed.

Lemma compare_generated p c st h st' :
  bcrypt.GenerateFromPassword p c st = ((h, None), st') ->
  bcrypt.CompareHashAndPassword h p = None.
Proof.
  intros Hg. pose proof (bcrypt.compare_own p c st) as H.
  rewrite Hg in H. now apply H.
Qed.

Lemma compare_any_salt p q c st1 st2 h1 h2 st1' st2' :
  bcrypt.GenerateFromPassword p c st1 = ((h1, None), st1') ->
  bcrypt.GenerateFromPassword p c st2 = ((h2, None), st2') ->
  is_nil (bcrypt.CompareHashAndPassword h1 q) = is_nil (bcrypt.CompareHashAndPassword h2 q).
Proof.
  intros Hg1 Hg2. pose proof (bcrypt.compare_salt p q c st1 st2) as H.
  rewrite Hg1, Hg2 in H. now apply H.
Qed.

(** C2, as the code has it.  [createCredentialWithExpiry] returns; it
    returns no error and a valid credential exactly when the access key has
    5 to 20 bytes and the secret key 8 to 40; an access key of another
    length gives exactly [errInvalidAccessKeyLength]; an access key of
    valid length with a secret key of another length gives exactly
    [errInvalidSecretKeyLength]; and when it returns an error the
    credential has an empty access key, an empty secret key and no hash. *)
Theorem createCredentialWithExpiry_cases
    (accessKey secretKey : string) (expiry : Time) (s : State B) :
  exists cred err s',
    createCredentialWithExpiry accessKey secretKey expiry s = Returned ((cred, err), s') /\
    (err = None /\ IsValid cred = true <->
     5 <= len accessKey <= 20 /\ 8 <= len secretKey <= 40) /\
    (~ 5 <= len accessKey <= 20 -> err = Some errInvalidAccessKeyLength) /\
    (5 <= len accessKey <= 20 -> ~ 8 <= len secretKey <= 40 ->
     err = Some errInvalidSecretKeyLength) /\
    (err <> None ->
     AccessKey cred = "" /\ SecretKey cred = "" /\ secretKeyHash cred = None).
Proof.
  destruct (isAccessKeyValid accessKey) eqn:H1.
  - pose proof (proj1 (isAccessKeyValid_iff accessKey) H1) as L1.
    destruct (isSecretKeyValid secretKey) eqn:H2.
    + pose proof (proj1 (isSecretKeyValid_iff secretKey) H2) as L2.
      destruct (bcrypt.GenerateFromPassword (bytes_of secretKey) bcrypt.DefaultCost
                  (hasher s)) as [[h e] st] eqn:Hg.
      pose proof (generate_no_error _ _ _ _ _ Hg) as ->.
      eexists _, _, _. split; [eapply create_hashed; eauto|].
      unfold IsValid. simpl. rewrite H1, H2. simpl. tauto.
    + assert (~ 8 <= len secretKey <= 40) as L2
        by (rewrite <- isSecretKeyValid_iff; congruence).
      eexists _, _, _. split; [eapply create_bad_secret_key; eauto|].
      split; [split; [intros [? _]; discriminate | tauto]|].
      split; [tauto|]. split; [reflexivity|].
      intros _. apply failed_credential_empty.
  - assert (~ 5 <= len accessKey <= 20) as L1
      by (rewrite <- isAccessKeyValid_iff; congruence).
    eexists _, _, _. split; [eapply create_bad_access_key; eauto|].
    split; [split; [intros [? _]; discriminate | tauto]|].
    split; [reflexivity|]. split; [tauto|].
    intros _. apply failed_credential_empty.
Qed.

(** C10. [Equal] is reflexive on a valid credential whose hash is unset or
    is the hash of its own secret key, computed as
    [createCredentialWithExpiry] computes it. *)
Theorem Equal_reflexive (c : credential) (s : State B) :
  5 <= len (AccessKey c) <= 20 ->
  8 <= len (SecretKey c) <= 40 ->
  (secretKeyHash c = None \/
   exists st st',
     bcrypt.GenerateFromPassword (bytes_of (SecretKey c)) bcrypt.DefaultCost st
       = ((secretKeyHash c, None), st')) ->
  exists s', Equal c c s = Returned (true, s').
Proof.
  intros La Ls Hhash.
  assert (IsValid c = true) as Hv by (apply IsValid_iff; tauto).
  destruct (secretKeyHash c) as [h0|] eqn:Hh.
  - destruct Hhash as [?|(st & st' & Hg)]; [discriminate|].
    eexists. erewrite Equal_of_body by (eapply Equal_body_cached; eauto).
    simpl. rewrite String.eqb_refl, (compare_generated _ _ _ _ _ Hg). reflexivity.
  - destruct (bcrypt.GenerateFromPassword (bytes_of (SecretKey c)) bcrypt.DefaultCost
                (hasher s)) as [[h e] st] eqn:Hg.
    pose proof (generate_no_error _ _ _ _ _ Hg) as ->.
    eexists. erewrite Equal_of_body by (eapply Equal_body_fresh; eauto).
    simpl. rewrite String.eqb_refl, (compare_generated _ _ _ _ _ Hg). reflexivity.
Qed.

(** C7. Two calls of [Equal] on the same two credentials, one after the
    other, return the same boolean, and after each call the caller's two
    credentials (access key, secret key, expiry and stored hash) are what
    they were before it. *)
Theorem Equal_twice (a b : credential) (s : State B) :
  exists r s1 s2,
    call_Equal (mkVars a b) s = Returned ((r, mkVars a b), s1) /\
    call_Equal (mkVars a b) s1 = Returned ((r, mkVars a b), s2) /\
    Equal a b s = Returned (r, s1) /\
    Equal a b s1 = Returned (r, s2).
Proof.
  assert (Hcall : forall r0 t t', Equal_body a b t = Returned (r0, t') ->
            call_Equal (mkVars a b) t = Returned ((fst r0, mkVars a b), t') /\
            Equal a b t = Returned (fst r0, t')).
  { intros r0 t t' H. unfold call_Equal, Equal, bind, ret. simpl. now rewrite H. }
  destruct (IsValid b) eqn:Hv.
  - destruct (secretKeyHash a) as [h0|] eqn:Hh.
    + pose proof (fun t => Hcall _ t _ (Equal_body_cached a b h0 t Hv Hh)) as H.
      simpl in H. eexists _, s, s. split; [apply H|]. split; [apply H|].
      split; apply H.
    + destruct (bcrypt.GenerateFromPassword (bytes_of (SecretKey a)) bcrypt.DefaultCost
                  (hasher s)) as [[h1 e1] st1] eqn:Hg1.
      pose proof (generate_no_error _ _ _ _ _ Hg1) as ->.
      pose proof (Hcall _ _ _ (Equal_body_fresh a b s h1 st1 Hv Hh Hg1)) as [H1 H1'].
      set (s1 := mkState (entropy s) st1 (logged s)) in *.
      destruct (bcrypt.GenerateFromPassword (bytes_of (SecretKey a)) bcrypt.DefaultCost
                  (hasher s1)) as [[h2 e2] st2] eqn:Hg2.
      pose proof (generate_no_error _ _ _ _ _ Hg2) as ->.
      pose proof (Hcall _ _ _ (Equal_body_fresh a b s1 h2 st2 Hv Hh Hg2)) as [H2 H2'].
      simpl in H1, H1', H2, H2'.
      rewrite <- (compare_any_salt _ (bytes_of (SecretKey b)) _ _ _ _ _ _ _ Hg1 Hg2)
        in H2, H2'.
      eexists _, _, _. repeat split; eassumption.
  - pose proof (fun t => Hcall _ t _ (Equal_body_invalid a b t Hv)) as H.
    simpl in H. exists false, s, s. split; [apply H|]. split; [apply H|].
    split; apply H.
Qed.

(** With sixty bytes of entropy at hand and a working bcrypt a new
    credential is returned, by both functions. *)
Lemma getNewCredentialWithExpiry_returns timeSentinel expiry (s : State B) :
  60 <= length (entropy s) ->
  (exists cred s', getNewCredentialWithExpiry expiry s = Returned ((cred, None), s')) /\
  (exists cred s', mustGetNewCredential timeSentinel s = Returned (cred, s')).
Proof.
  intros Hent.
  assert (forall e, exists cred s',
            getNewCredentialWithExpiry e s = Returned ((cred, None), s')) as Hget.
  { intros e. unfold getNewCredentialWithExpiry.
    destruct (rand_Read_returns (make accessKeyMaxLen) s) as (b1 & e1 & R1 & L1 & E1).
    unfold make in L1, E1. rewrite length_replicate in L1, E1.
    unfold bind at 1. rewrite R1.
    rewrite (proj2 E1) by (unfold accessKeyMaxLen; lia).
    unfold bind at 1. unfold fatalIf at 1. unfold bind at 1.
    rewrite (alphaNumeric_loop_returns accessKeyMaxLen 0 b1) by (rewrite L1; reflexivity).
    rewrite take_0, drop_0, app_nil_l.
    unfold bind at 1.
    match goal with |- context [rand_Read ?b ?t] =>
      destruct (rand_Read_returns b t) as (b2 & e2 & R2 & L2 & E2) end.
    unfold make in L2, E2. rewrite length_replicate in L2, E2.
    rewrite R2.
    rewrite (proj2 E2)
      by (cbn [entropy]; rewrite length_drop, length_replicate;
          unfold secretKeyMaxLen, secretKeyMaxLenAmazon, accessKeyMaxLen; lia).
    cbn [is_nil negb].
    unfold base64.EncodeToString. rewrite bytes_of_string_of.
    unfold bind at 1. unfold slice_to at 1.
    assert (secretKeyMaxLen <= length (base64.encode b2)) as Hle.
    { rewrite base64_encode_length, L2. vm_compute. lia. }
    assert (length (take secretKeyMaxLen (base64.encode b2)) = 40) as Ltake
      by (rewrite length_take; change secretKeyMaxLen with 40 in *; lia).
    apply Nat.leb_le in Hle. rewrite Hle. unfold ret at 1.
    unfold bind at 1.
    match goal with |- context [createCredentialWithExpiry ?a ?k ?x ?t] =>
      destruct (bcrypt.GenerateFromPassword (bytes_of k) bcrypt.DefaultCost (hasher t))
        as [[h err] st] eqn:Hg;
      pose proof (generate_no_error _ _ _ _ _ Hg); subst err;
      erewrite (create_hashed a k x t h st)
    end; try exact Hg.
    - cbn [is_nil negb]. unfold ret. eexists _, _. reflexivity.
    - apply isAccessKeyValid_iff. rewrite len_string_of, length_map, L1.
      unfold accessKeyMaxLen. lia.
    - apply isSecretKeyValid_iff. rewrite len_string_of, Ltake. lia. }
  split; [apply Hget|].
  destruct (Hget timeSentinel) as (cred & s' & H).
  exists cred, s'. unfold mustGetNewCredential, bind. now rewrite H.
Qed.
End WorkingBcrypt.
End CredentialFacts.

(** ** Disk quorum and backend selection *)

(** C3. On more than one endpoint [checkSufficientDisks] gives the error
    of the first rule that fails, in the order minimum, maximum, even
    count: it succeeds on 6, 12 and 16 endpoints and gives exactly
    [errXLMaxDisks] on 17, [errXLMinDisks] on 3 and [errXLNumDisks] on 11. *)
Theorem checkSufficientDisks_rules (endpoints : list StorageEndpoint) :
  1 < length endpoints ->
  (length endpoints < 6 -> checkSufficientDisks endpoints = Some errXLMinDisks) /\
  (6 <= length endpoints -> 16 < length endpoints ->
   checkSufficientDisks endpoints = Some errXLMaxDisks) /\
  (6 <= length endpoints <= 16 -> length endpoints mod 2 <> 0 ->
   checkSufficientDisks endpoints = Some errXLNumDisks) /\
  (6 <= length endpoints <= 16 -> length endpoints mod 2 = 0 ->
   checkSufficientDisks endpoints = None) /\
  (length endpoints = 6 \/ length endpoints = 12 \/ length endpoints = 16 ->
   checkSufficientDisks endpoints = None) /\
  (length endpoints = 17 -> checkSufficientDisks endpoints = Some errXLMaxDisks) /\
  (length endpoints = 3 -> checkSufficientDisks endpoints = Some errXLMinDisks) /\
  (length endpoints = 11 -> checkSufficientDisks endpoints = Some errXLNumDisks).
Proof.
  intros _. unfold checkSufficientDisks, minErasureBlocks, maxErasureBlocks.
  destruct (Nat.ltb_spec (length endpoints) 6) as [Hmin|Hmin];
    [repeat split; intros; try reflexivity; lia|].
  destruct (Nat.ltb_spec 16 (length endpoints)) as [Hmax|Hmax];
    [repeat split; intros; try reflexivity; lia|].
  destruct (Nat.eqb_spec (length endpoints mod 2) 0) as [Hev|Hodd]; cbn [negb];
    repeat split; intros; try reflexivity; try lia; try congruence;
    repeat match goal with H : _ \/ _ |- _ => destruct H end;
    match goal with
    | H : length endpoints = _ |- _ => rewrite H in *; simpl in *; congruence
    | _ => idtac
    end.
Qed.

(** C4. A topology of exactly one endpoint gives the filesystem engine on
    that endpoint whatever the validator would say, and the disk-count
    rules, which reject a single endpoint, are not asked; a topology of 16
    endpoints gives the erasure-coded engine on them. *)
Theorem newObjectLayer_selects :
  (forall endpoints : list StorageEndpoint,
     length endpoints = 1 ->
     exists endpoint,
       endpoints = [endpoint] /\
       (forall validate,
          newObjectLayerWith validate endpoints = Some (Ready (fsObjects endpoint))) /\
       newObjectLayer endpoints = Some (Ready (fsObjects endpoint)) /\
       checkSufficientDisks endpoints = Some errXLMinDisks) /\
  (forall endpoints : list StorageEndpoint,
     length endpoints = 16 ->
     newObjectLayer endpoints = Some (Ready (xlObjects endpoints))).
Proof.
  split.
  - intros [|endpoint [|? ?]] Hlen; try discriminate.
    exists endpoint. repeat split.
  - intros endpoints Hlen. unfold newObjectLayer, newObjectLayerWith.
    assert (checkSufficientDisks endpoints = None) as ->.
    { unfold checkSufficientDisks. now rewrite Hlen. }
    destruct endpoints as [|? [|? ?]]; try discriminate. reflexivity.
Qed.

(** ** Address resolution *)

Lemma SplitHostPort_noColon (s : string) :
  noColon s -> SplitHostPort s = None.
Proof.
  induction s as [|c s IH]; intros Hs; [reflexivity|].
  simpl. rewrite IH by (intros x Hx; apply Hs; now right).
  destruct (Ascii.eqb_spec c ":"%char) as [->|]; [|reflexivity].
  exfalso. now apply (Hs ":"%char); [left|].
Qed.

Lemma SplitHostPort_app (host port : string) :
  noColon port ->
  SplitHostPort (host ++ String ":" port) = Some (host, port).
Proof.
  intros Hp. induction host as [|c host IH]; simpl.
  - now rewrite SplitHostPort_noColon.
  - now rewrite IH.
Qed.

Lemma allDigits_noColon (s : string) : allDigits s = true -> noColon s.
Proof.
  induction s as [|c s IH]; simpl; intros H x Hx; [contradiction|].
  apply andb_true_iff in H as [Hc Hs]. destruct Hx as [<-|Hx].
  - intros ->. discriminate.
  - now apply IH.
Qed.

Lemma noColon_empty : noColon "".
Proof. intros c []. Qed.

Lemma noColon_zero : noColon "0".
Proof. now apply allDigits_noColon. Qed.

(** C8. An address whose port part is empty or the literal [0], whatever
    its host part, is refused with [errEmptyPort], and an address without
    any colon is refused with [errMissingPort], by [getHostPort] and by
    [getListenIPs]. *)
Theorem empty_port_refused (interfaces : list string) :
  (forall host port : string,
     port = "" \/ port = "0" ->
     getHostPort (host ++ String ":" port) = inr errEmptyPort /\
     getListenIPs interfaces (host ++ String ":" port) = inr errEmptyPort) /\
  (forall address : string,
     noColon address ->
     getHostPort address = inr errMissingPort /\
     getListenIPs interfaces address = inr errMissingPort).
Proof.
  split.
  - intros host port Hport.
    assert (getHostPort (host ++ String ":" port) = inr errEmptyPort) as H.
    { unfold getHostPort. rewrite SplitHostPort_app.
      - now destruct Hport as [-> | ->].
      - destruct Hport as [-> | ->]; [apply noColon_empty | apply noColon_zero]. }
    split; [exact H|]. unfold getListenIPs. now rewrite H.
  - intros address Hno.
    assert (getHostPort address = inr errMissingPort) as H.
    { unfold getHostPort. now rewrite SplitHostPort_noColon. }
    split; [exact H|]. unfold getListenIPs. now rewrite H.
Qed.

(** C9. For an empty host and a port that is a decimal number from 1 to
    65535, [getListenIPs] succeeds with a host list that is not empty and
    with the port string as it was given. *)
Theorem wildcard_host_resolves (interfaces : list string) (port : string) :
  allDigits port = true ->
  (1 <= decimal 0 port <= 65535)%N ->
  exists hosts,
    getListenIPs interfaces (String ":" port) = inl (hosts, port) /\
    hosts <> [].
Proof.
  intros Hdigits [Hlo Hhi].
  exists (getInterfaceIPs interfaces). split.
  - unfold getListenIPs, getHostPort.
    rewrite (SplitHostPort_app "" port (allDigits_noColon port Hdigits)
             : SplitHostPort (String ":" port) = _).
    assert ((port =? "")%string = false) as ->.
    { apply String.eqb_neq. intros ->. simpl in Hlo. lia. }
    assert ((port =? "0")%string = false) as ->.
    { apply String.eqb_neq. intros ->. simpl in Hlo. lia. }
    rewrite Hdigits. simpl.
    apply N.leb_le in Hlo, Hhi. now rewrite Hlo, Hhi.
  - unfold getInterfaceIPs. now destruct interfaces.
Qed.

(** ** The code run on the stand-in for bcrypt *)

Lemma toy_laws : bcrypt.Laws toy.lib.
Proof.
  split.
  - reflexivity.
  - intros p c st _. simpl. unfold toy.compare.
    now rewrite bool_decide_eq_true_2.
  - reflexivity.
Qed.

(** [Equal] against a candidate with the right access key and a secret
    key that is too short. *)
Lemma Equal_true_iff_witness :
  exists s',
    Equal minio_hashed (mkCredential "minio" "minio" zeroTime None) (toy.state0 [])
    = Returned (false, s').
Proof.
  destruct (Equal_true_iff minio_hashed (mkCredential "minio" "minio" zeroTime None)
              (toy.state0 [])) as (r & s' & H & _ & Hinvalid).
  exists s'. rewrite H. rewrite Hinvalid; [reflexivity|].
  unfold len. simpl. lia.
Defined.

Lemma createCredentialWithExpiry_cases_witness :
  exists cred s',
    createCredentialWithExpiry "minio" "minio123" zeroTime (toy.state0 [])
    = Returned ((cred, None), s') /\ IsValid cred = true.
Proof.
  destruct (createCredentialWithExpiry_cases (BL := toy_laws)
              "minio" "minio123" zeroTime (toy.state0 []))
    as (cred & err & s' & H & Hiff & _).
  destruct (proj2 Hiff) as [-> Hv]; [unfold len; simpl; lia|].
  exists cred, s'. split; assumption.
Defined.

(** C2 as it is worded fails where both keys are too short and an expiry
    is given: the secret key's length is outside 8 to 40 and the error is
    the access key's, and the credential returned with the error carries
    the expiry. *)
Lemma createCredentialWithExpiry_both_short :
  createCredentialWithExpiry "abc" "abc" (mkTime 1 0) (toy.state0 [])
  = Returned ((mkCredential "" "" (mkTime 1 0) None, Some errInvalidAccessKeyLength),
              toy.state0 []) /\
  ~ 8 <= len "abc" <= 40 /\
  Some errInvalidAccessKeyLength <> Some errInvalidSecretKeyLength /\
  mkCredential "" "" (mkTime 1 0) None <> credential_zero.
Proof.
  split; [reflexivity|]. split; [unfold len; simpl; lia|].
  split; discriminate.
Qed.

Lemma Equal_reflexive_witness :
  exists s', Equal minio_hashed minio_hashed (toy.state0 []) = Returned (true, s').
Proof.
  apply (Equal_reflexive (BL := toy_laws) minio_hashed (toy.state0 [])).
  - unfold len. simpl. lia.
  - unfold len. simpl. lia.
  - right. exists 0, 1. reflexivity.
Defined.

Lemma Equal_twice_witness :
  exists r s1 s2,
    call_Equal (mkVars minio minio_hashed) (toy.state0 [])
    = Returned ((r, mkVars minio minio_hashed), s1) /\
    call_Equal (mkVars minio minio_hashed) s1
    = Returned ((r, mkVars minio minio_hashed), s2) /\
    Equal minio minio_hashed (toy.state0 []) = Returned (r, s1) /\
    Equal minio minio_hashed s1 = Returned (r, s2).
Proof. exact (Equal_twice (BL := toy_laws) minio minio_hashed (toy.state0 [])). Defined.

(** The callee's copy of the receiver holds the new hash when [Equal]
    returns; the caller's credential has none, as before. *)
Example Equal_caches_in_its_copy :
  Equal_body minio minio_hashed (toy.state0 [])
  = Returned ((true, minio_hashed), @mkState toy.lib [] 1 []) /\
  call_Equal (mkVars minio minio_hashed) (toy.state0 [])
  = Returned ((true, mkVars minio minio_hashed), @mkState toy.lib [] 1 []).
Proof. split; reflexivity. Qed.

Lemma generated_credential_shape_witness :
  exists cred s',
    getNewCredentialWithExpiry zeroTime (toy.state0 sixty_bytes)
    = Returned ((cred, None), s') /\
    (IsValid cred = true /\
     len (AccessKey cred) = 20 /\
     Forall (fun c => In c (bytes_of alphaNumericTable)) (bytes_of (AccessKey cred)) /\
     len (SecretKey cred) = 40).
Proof.
  eexists _, _. split.
  - vm_compute. reflexivity.
  - eapply (generated_credential_shape zeroTime zeroTime (toy.state0 sixty_bytes)).
    left. vm_compute. reflexivity.
Defined.

Example generated_credential_keys :
  exists cred s',
    mustGetNewCredential (mkTime 62135596800 0) (toy.state0 sixty_bytes)
    = Returned (cred, s') /\
    AccessKey cred = "PQRSTUVWXYZ012345678" /\
    SecretKey cred = "dXZ3eHl6QUJDREVGR0hJSktMTU5PUFFSU1RVVldY".
Proof. eexists _, _. split; [vm_compute; reflexivity|]. split; reflexivity. Qed.

Lemma checkSufficientDisks_rules_witness :
  checkSufficientDisks (disks 17) = Some errXLMaxDisks /\
  checkSufficientDisks (disks 12) = None.
Proof.
  split.
  - destruct (checkSufficientDisks_rules (disks 17)) as (_ & _ & _ & _ & _ & H & _);
      [simpl; lia|].
    apply H. reflexivity.
  - destruct (checkSufficientDisks_rules (disks 12)) as (_ & _ & _ & _ & H & _);
      [simpl; lia|].
    apply H. right. left. reflexivity.
Defined.

Lemma newObjectLayer_selects_witness :
  newObjectLayer (disks 1) = Some (Ready (fsObjects (mkEndpoint LocalPath "" "/A"))) /\
  newObjectLayer (disks 16) = Some (Ready (xlObjects (disks 16))).
Proof.
  destruct newObjectLayer_selects as [Hone Hsixteen]. split.
  - destruct (Hone (disks 1) eq_refl) as (endpoint & Heq & _ & H & _).
    injection Heq as <-. exact H.
  - apply Hsixteen. reflexivity.
Defined.

Lemma empty_port_refused_witness :
  getHostPort ":0" = inr errEmptyPort /\
  getListenIPs [] ":" = inr errEmptyPort /\
  getHostPort "hostname" = inr errMissingPort.
Proof.
  destruct (empty_port_refused []) as [Hempty Hmissing]. split; [|split].
  - apply (Hempty "" "0"). right. reflexivity.
  - apply (Hempty "" ""). left. reflexivity.
  - apply (Hmissing "hostname"). intros c Hc. simpl in Hc.
    repeat (destruct Hc as [<-|Hc]; [discriminate|]). contradiction.
Defined.

Lemma wildcard_host_resolves_witness :
  exists hosts, getListenIPs [] ":9000" = inl (hosts, "9000") /\ hosts <> [].
Proof.
  apply (wildcard_host_resolves [] "9000").
  - reflexivity.
  - vm_compute. split; discriminate.
Defined.

(** * Further properties of cmd/credential.go *)

(** ** More on the encoder and the access-key alphabet *)

Lemma base64_enc_in_alphabet (v : N) : In (base64.enc v) (bytes_of base64.encodeStd).
Proof.
  unfold base64.enc.
  assert (N.to_nat (N.land v 63) < length (bytes_of base64.encodeStd)) as Hlt.
  { change (length (bytes_of base64.encodeStd)) with 64.
    change 63%N with (N.ones 6). rewrite N.land_ones.
    pose proof (N.mod_upper_bound v (2 ^ 6)). change (2 ^ 6)%N with 64%N in *. lia. }
  apply lookup_lt_is_Some_2 in Hlt. destruct Hlt as [c Hc]. rewrite Hc.
  change (In c (bytes_of base64.encodeStd)).
  apply list_elem_of_In. eapply list_elem_of_lookup_2, Hc.
Qed.

(** Whole groups of three bytes are encoded on their own: no padding, only
    characters of the alphabet, and what follows them is encoded
    independently. *)
Lemma base64_encode_groups (k : nat) :
  forall front rest : list byte,
    length front = 3 * k ->
    base64.encode (front ++ rest) = base64.encode front ++ base64.encode rest /\
    length (base64.encode front) = 4 * k /\
    Forall (fun c => In c (bytes_of base64.encodeStd)) (base64.encode front).
Proof.
  induction k as [|k IH]; intros front rest Hlen.
  - destruct front; [|discriminate]. repeat split. constructor.
  - destruct front as [|a [|b [|c front]]]; try (simpl in Hlen; lia).
    destruct (IH front rest) as (Happ & Hl & Hall); [simpl in Hlen; lia|].
    change (base64.encode ((a :: b :: c :: front) ++ rest)) with
      (base64.encode (a :: b :: c :: (front ++ rest))).
    cbn [base64.encode]. rewrite Happ. split; [reflexivity|].
    split; [cbn [length]; lia|].
    repeat (constructor; [apply base64_enc_in_alphabet|]). exact Hall.
Qed.

Lemma secretKey_of_30_bytes (rnd : list byte) :
  60 <= length rnd ->
  secretKey_of rnd = string_of (base64.encode (take 30 (drop 20 rnd))).
Proof.
  intros Hlen. unfold secretKey_of. f_equal.
  set (l := take 40 (drop 20 rnd)).
  assert (take 30 (drop 20 rnd) = take 30 l) as ->
    by (unfold l; rewrite take_take; reflexivity).
  rewrite <- (take_drop 30 l) at 1.
  destruct (base64_encode_groups 10 (take 30 l) (drop 30 l)) as (-> & Hl & _).
  { unfold l. rewrite !length_take, length_drop. lia. }
  rewrite take_app_length'; [reflexivity | symmetry; exact Hl].
Qed.

Lemma all_bytes_complete (x : byte) : In x all_bytes.
Proof. destruct x; vm_compute; tauto. Qed.

Lemma all_bytes_NoDup : NoDup all_bytes.
Proof.
  assert (bool_decide (NoDup all_bytes) = true) as H by (vm_compute; reflexivity).
  now apply bool_decide_eq_true in H.
Qed.


Section MoreCredentialFacts.

Context {B : bcrypt.Lib}.

(** ** What [rand.Read] hands over *)

Lemma rand_Read_enough (b : list byte) (s : State B) :
  length b <= length (entropy s) ->
  rand_Read b s
  = Returned ((take (length b) (entropy s), None),
              mkState (drop (length b) (entropy s)) (hasher s) (logged s)).
Proof.
  intros Hle. unfold rand_Read.
  rewrite length_take, Nat.min_l by lia.
  rewrite drop_ge, app_nil_r by lia.
  now rewrite Nat.ltb_irrefl.
Qed.

Lemma rand_Read_short (b : list byte) (s : State B) :
  length (entropy s) < length b ->
  exists b',
    rand_Read b s
    = Returned ((b', Some (errLibrary "unexpected EOF")),
                mkState [] (hasher s) (logged s)) /\
    length b' = length b.
Proof.
  intros Hlt. unfold rand_Read. eexists. split.
  - rewrite length_take, Nat.min_r by lia.
    apply Nat.ltb_lt in Hlt. rewrite Hlt.
    rewrite (drop_ge (entropy s)) by (apply Nat.ltb_lt in Hlt; lia). reflexivity.
  - rewrite length_app, length_drop, length_take. lia.
Qed.

(** ** The run of [getNewCredentialWithExpiry], by the entropy at hand *)

Lemma getNewCredentialWithExpiry_no_entropy expiry (s : State B) :
  length (entropy s) < 20 ->
  getNewCredentialWithExpiry expiry s = Exited "Unable to generate access key.".
Proof.
  intros Hlt. unfold getNewCredentialWithExpiry.
  destruct (rand_Read_short (make accessKeyMaxLen) s) as (b' & R & _).
  { unfold make. rewrite length_replicate. exact Hlt. }
  unfold bind at 1. rewrite R. reflexivity.
Qed.

Lemma getNewCredentialWithExpiry_half_entropy expiry (s : State B) :
  20 <= length (entropy s) < 60 ->
  getNewCredentialWithExpiry expiry s
  = Returned ((credential_zero, Some (errLibrary "unexpected EOF")),
              mkState [] (hasher s) (logged s)).
Proof.
  intros [Hlo Hhi]. unfold getNewCredentialWithExpiry.
  unfold bind at 1. rewrite rand_Read_enough
    by (unfold make; rewrite length_replicate; exact Hlo).
  unfold bind at 1. unfold fatalIf at 1. unfold bind at 1.
  rewrite alphaNumeric_loop_returns
    by (rewrite length_take; unfold make; rewrite length_replicate;
        unfold accessKeyMaxLen; lia).
  unfold bind at 1.
  match goal with |- context [rand_Read ?b ?t] =>
    destruct (rand_Read_short b t) as (b' & R & _) end.
  { unfold make. rewrite !length_replicate. cbn [entropy].
    rewrite length_drop. unfold secretKeyMaxLen, secretKeyMaxLenAmazon, accessKeyMaxLen.
    lia. }
  rewrite R. reflexivity.
Qed.

Lemma getNewCredentialWithExpiry_full_entropy expiry (s : State B) :
  60 <= length (entropy s) ->
  getNewCredentialWithExpiry expiry s
  = match createCredentialWithExpiry (accessKey_of (entropy s)) (secretKey_of (entropy s))
            expiry (mkState (drop 60 (entropy s)) (hasher s) (logged s)) with
    | Returned ((cred, None), s') => Returned ((cred, None), s')
    | Returned ((_, Some e), s') => Returned ((credential_zero, Some e), s')
    | Exited msg => Exited msg
    | Panicked msg => Panicked msg
    end.
Proof.
  intros Hle. unfold getNewCredentialWithExpiry.
  unfold bind at 1. rewrite rand_Read_enough
    by (unfold make; rewrite length_replicate; unfold accessKeyMaxLen; lia).
  unfold bind at 1. unfold fatalIf at 1. unfold bind at 1.
  rewrite alphaNumeric_loop_returns
    by (rewrite length_take; unfold make; rewrite length_replicate;
        unfold accessKeyMaxLen; lia).
  rewrite take_0, drop_0, app_nil_l.
  unfold bind at 1. rewrite rand_Read_enough
    by (unfold make; rewrite !length_replicate; cbn [entropy]; rewrite length_drop;
        unfold secretKeyMaxLen, secretKeyMaxLenAmazon, accessKeyMaxLen; lia).
  cbn [is_nil negb entropy hasher logged].
  unfold make. rewrite !length_replicate, drop_drop.
  unfold base64.EncodeToString. rewrite bytes_of_string_of.
  unfold bind at 1. unfold slice_to at 1.
  assert (secretKeyMaxLen <=
          length (base64.encode (take secretKeyMaxLen (drop accessKeyMaxLen (entropy s)))))
    as Hlen.
  { rewrite base64_encode_length, length_take, length_drop.
    unfold secretKeyMaxLen, secretKeyMaxLenAmazon, accessKeyMaxLen.
    rewrite Nat.min_l by lia. vm_compute. lia. }
  apply Nat.leb_le in Hlen. rewrite Hlen. unfold ret at 1.
  unfold bind at 1.
  change (accessKeyMaxLen + secretKeyMaxLen) with 60.
  change (string_of (map alphaNumeric (take accessKeyMaxLen (entropy s))))
    with (accessKey_of (entropy s)).
  change (string_of (take secretKeyMaxLen
            (base64.encode (take secretKeyMaxLen (drop accessKeyMaxLen (entropy s))))))
    with (secretKey_of (entropy s)).
  destruct (createCredentialWithExpiry _ _ _ _) as [[[c [e|]] t]| |]; reflexivity.
Qed.

Lemma createCredentialWithExpiry_returns accessKey secretKey expiry (s : State B) :
  exists r s', createCredentialWithExpiry accessKey secretKey expiry s = Returned (r, s').
Proof.
  destruct (isAccessKeyValid accessKey) eqn:H1;
    [|eexists _, _; now apply create_bad_access_key].
  destruct (isSecretKeyValid secretKey) eqn:H2;
    [|eexists _, _; now apply create_bad_secret_key].
  destruct (bcrypt.GenerateFromPassword (bytes_of secretKey) bcrypt.DefaultCost (hasher s))
    as [[h [e|]] st] eqn:Hg; eexists _, _.
  - eapply create_hash_failed; eauto.
  - eapply create_hashed; eauto.
Qed.

Lemma createCredentialWithExpiry_success_fields accessKey secretKey expiry (s : State B) cred s' :
  createCredentialWithExpiry accessKey secretKey expiry s = Returned ((cred, None), s') ->
  AccessKey cred = accessKey /\ SecretKey cred = secretKey /\ entropy s' = entropy s.
Proof.
  intros H.
  destruct (isAccessKeyValid accessKey) eqn:H1;
    [|rewrite create_bad_access_key in H by assumption; discriminate].
  destruct (isSecretKeyValid secretKey) eqn:H2;
    [|rewrite create_bad_secret_key in H by assumption; discriminate].
  destruct (bcrypt.GenerateFromPassword (bytes_of secretKey) bcrypt.DefaultCost (hasher s))
    as [[h [e|]] st] eqn:Hg.
  - erewrite create_hash_failed in H by eauto. discriminate.
  - erewrite create_hashed in H by eauto.
    injection H as <- <-. repeat split.
Qed.

Lemma getNewCredentialWithExpiry_success_inv expiry (s : State B) cred s' :
  getNewCredentialWithExpiry expiry s = Returned ((cred, None), s') ->
  60 <= length (entropy s) /\
  createCredentialWithExpiry (accessKey_of (entropy s)) (secretKey_of (entropy s)) expiry
    (mkState (drop 60 (entropy s)) (hasher s) (logged s))
  = Returned ((cred, None), s').
Proof.
  intros H.
  destruct (Nat.lt_ge_cases (length (entropy s)) 20) as [Hlt|Hge].
  { rewrite getNewCredentialWithExpiry_no_entropy in H by assumption. discriminate. }
  destruct (Nat.lt_ge_cases (length (entropy s)) 60) as [Hlt|Hge'].
  { rewrite getNewCredentialWithExpiry_half_entropy in H by lia. discriminate. }
  split; [assumption|].
  rewrite getNewCredentialWithExpiry_full_entropy in H by assumption.
  destruct (createCredentialWithExpiry _ _ _ _) as [[[c [e|]] t]| |];
    try discriminate. exact H.
Qed.


(** X2. The length checks come before any hashing: when a key has a wrong
    length [createCredentialWithExpiry] returns its error in the state it
    was called in, and so does [Equal] its result when the candidate is
    not valid or the receiver has a stored hash. *)
Theorem validation_before_hashing (s : State B) :
  (forall accessKey secretKey expiry,
     isAccessKeyValid accessKey && isSecretKeyValid secretKey = false ->
     exists cred err,
       createCredentialWithExpiry accessKey secretKey expiry s
       = Returned ((cred, Some err), s)) /\
  (forall credA credB,
     IsValid credB = false \/ secretKeyHash credA <> None ->
     exists r, Equal credA credB s = Returned (r, s)).
Proof.
  split.
  - intros accessKey secretKey expiry H.
    destruct (isAccessKeyValid accessKey) eqn:H1.
    + simpl in H. eexists _, _. now apply create_bad_secret_key.
    + eexists _, _. now apply create_bad_access_key.
  - intros credA credB H.
    destruct (IsValid credB) eqn:Hv.
    + destruct H as [?|H]; [discriminate|].
      destruct (secretKeyHash credA) as [h|] eqn:Hh; [|congruence].
      eexists. apply Equal_of_body. eapply Equal_body_cached; eauto.
    + eexists. apply Equal_of_body. now apply Equal_body_invalid.
Qed.

(** X3. What [Equal] reads: of the receiver the access key and the stored
    hash, and its secret key only when no hash is stored; of the candidate
    the two keys.  The expiry of either, and the candidate's hash, do not
    matter. *)
Theorem Equal_reads (credA credA' credB credB' : credential) (s : State B) :
  AccessKey credA = AccessKey credA' ->
  secretKeyHash credA = secretKeyHash credA' ->
  (secretKeyHash credA = None -> SecretKey credA = SecretKey credA') ->
  AccessKey credB = AccessKey credB' ->
  SecretKey credB = SecretKey credB' ->
  Equal credA credB s = Equal credA' credB' s.
Proof.
  intros Ha Hh Hs Hb Hbs.
  assert (IsValid credB = IsValid credB') as Hv
    by (unfold IsValid; now rewrite Hb, Hbs).
  destruct (IsValid credB) eqn:Hv1; symmetry in Hv.
  - destruct (secretKeyHash credA) as [h|] eqn:Hh1; symmetry in Hh.
    + rewrite (Equal_of_body _ _ _ _ _ (Equal_body_cached credA credB h s Hv1 Hh1)).
      rewrite (Equal_of_body _ _ _ _ _ (Equal_body_cached credA' credB' h s Hv Hh)).
      simpl. now rewrite Ha, Hb, Hbs.
    + specialize (Hs eq_refl).
      destruct (bcrypt.GenerateFromPassword (bytes_of (SecretKey credA))
                  bcrypt.DefaultCost (hasher s)) as [[h [e|]] st] eqn:Hg.
      * rewrite (Equal_of_body _ _ _ _ _
                   (Equal_body_failed credA credB s h e st Hv1 Hh1 Hg)).
        rewrite Hs in Hg.
        now rewrite (Equal_of_body _ _ _ _ _
                   (Equal_body_failed credA' credB' s h e st Hv Hh Hg)).
      * rewrite (Equal_of_body _ _ _ _ _
                   (Equal_body_fresh credA credB s h st Hv1 Hh1 Hg)).
        rewrite Hs in Hg.
        rewrite (Equal_of_body _ _ _ _ _
                   (Equal_body_fresh credA' credB' s h st Hv Hh Hg)).
        simpl. now rewrite Ha, Hb, Hbs.
  - rewrite (Equal_of_body _ _ _ _ _ (Equal_body_invalid credA credB s Hv1)).
    now rewrite (Equal_of_body _ _ _ _ _ (Equal_body_invalid credA' credB' s Hv)).
Qed.

(** X5. When [getNewCredentialWithExpiry] returns an error, the credential
    beside it is [credential{}], without the expiry, and is not valid. *)
Theorem getNewCredentialWithExpiry_error_zero
    (expiry : Time) (s : State B) (cred : credential) (err : error) (s' : State B) :
  getNewCredentialWithExpiry expiry s = Returned ((cred, Some err), s') ->
  cred = credential_zero /\ IsValid cred = false.
Proof.
  intros H. assert (cred = credential_zero) as ->; [|split; reflexivity].
  destruct (Nat.lt_ge_cases (length (entropy s)) 20) as [Hlt|Hge].
  { rewrite getNewCredentialWithExpiry_no_entropy in H by assumption. discriminate. }
  destruct (Nat.lt_ge_cases (length (entropy s)) 60) as [Hlt|Hge'].
  { rewrite getNewCredentialWithExpiry_half_entropy in H by lia. congruence. }
  rewrite getNewCredentialWithExpiry_full_entropy in H by assumption.
  destruct (createCredentialWithExpiry _ _ _ _) as [[[c [e|]] t]| |];
    try discriminate; congruence.
Qed.

(** X6. Neither [getNewCredentialWithExpiry] nor [mustGetNewCredential]
    panics: the indices into the key buffer and into the alphabet, and the
    bound of the slice of the encoded secret key, are in range for every
    entropy. *)
Theorem generation_never_panics (timeSentinel expiry : Time) (s : State B) (msg : string) :
  getNewCredentialWithExpiry expiry s <> Panicked msg /\
  mustGetNewCredential timeSentinel s <> Panicked msg.
Proof.
  assert (forall e m, getNewCredentialWithExpiry e s <> Panicked m) as Hget.
  { intros e m.
    destruct (Nat.lt_ge_cases (length (entropy s)) 20) as [Hlt|Hge].
    { now rewrite getNewCredentialWithExpiry_no_entropy by assumption. }
    destruct (Nat.lt_ge_cases (length (entropy s)) 60) as [Hlt|Hge'].
    { now rewrite getNewCredentialWithExpiry_half_entropy by lia. }
    rewrite getNewCredentialWithExpiry_full_entropy by assumption.
    destruct (createCredentialWithExpiry_returns (accessKey_of (entropy s))
                (secretKey_of (entropy s)) e
                (mkState (drop 60 (entropy s)) (hasher s) (logged s)))
      as ([c [err|]] & t & ->); discriminate. }
  split; [apply Hget|].
  unfold mustGetNewCredential, bind.
  destruct (getNewCredentialWithExpiry timeSentinel s) as [[[c [e|]] t]| |] eqn:H;
    try discriminate.
  now apply Hget in H.
Qed.


(** X8. The secret key of a new credential has only characters of the
    base64 alphabet: the padding character does not occur in it. *)
Theorem generated_secret_key_alphabet
    (expiry : Time) (s : State B) (cred : credential) (s' : State B) :
  getNewCredentialWithExpiry expiry s = Returned ((cred, None), s') ->
  Forall (fun c => In c (bytes_of base64.encodeStd)) (bytes_of (SecretKey cred)) /\
  ~ In base64.StdPadding (bytes_of (SecretKey cred)).
Proof.
  intros H. apply getNewCredentialWithExpiry_success_inv in H as [Hlen H].
  apply createCredentialWithExpiry_success_fields in H as (_ & Hs & _).
  rewrite Hs, secretKey_of_30_bytes, bytes_of_string_of by assumption.
  destruct (base64_encode_groups 10 (take 30 (drop 20 (entropy s))) [])
    as (_ & _ & Hall).
  { rewrite length_take, length_drop. lia. }
  split; [exact Hall|].
  intros Hpad. rewrite List.Forall_forall in Hall. apply Hall in Hpad.
  revert Hpad. vm_compute. intuition discriminate.
Qed.

(** X11. What the entropy at hand decides: with fewer than 20 bytes both
    functions end the process; with 20 to 59 bytes
    [getNewCredentialWithExpiry] returns [credential{}] and an error, having
    used up the entropy, and [mustGetNewCredential] ends the process. *)
Theorem generation_short_of_entropy (timeSentinel expiry : Time) (s : State B) :
  (length (entropy s) < 20 ->
   getNewCredentialWithExpiry expiry s = Exited "Unable to generate access key." /\
   mustGetNewCredential timeSentinel s = Exited "Unable to generate access key.") /\
  (20 <= length (entropy s) < 60 ->
   (exists err,
      getNewCredentialWithExpiry expiry s
      = Returned ((credential_zero, Some err), mkState [] (hasher s) (logged s))) /\
   mustGetNewCredential timeSentinel s = Exited "Unable to generate new credential.").
Proof.
  split.
  - intros Hlt. split; [now apply getNewCredentialWithExpiry_no_entropy|].
    unfold mustGetNewCredential, bind.
    now rewrite getNewCredentialWithExpiry_no_entropy.
  - intros Hlen. split.
    + eexists. now apply getNewCredentialWithExpiry_half_entropy.
    + unfold mustGetNewCredential, bind.
      now rewrite getNewCredentialWithExpiry_half_entropy.
Qed.

Section MoreWithWorkingBcrypt.

Context {BL : bcrypt.Laws B}.

(** A credential that carries bcrypt's hash of its own secret key, or no
    hash, accepts every valid candidate with its two keys. *)
Lemma own_hash_accepts (cred cand : credential) (s : State B) st st' :
  IsValid cred = true ->
  bcrypt.GenerateFromPassword (bytes_of (SecretKey cred)) bcrypt.DefaultCost st
    = ((secretKeyHash cred, None), st') ->
  AccessKey cand = AccessKey cred ->
  SecretKey cand = SecretKey cred ->
  exists s', Equal cred cand s = Returned (true, s').
Proof.
  intros Hv Hg Ha Hs.
  assert (IsValid cand = true) as Hvc by (unfold IsValid in *; now rewrite Ha, Hs).
  destruct (secretKeyHash cred) as [h0|] eqn:Hh.
  - eexists. erewrite Equal_of_body by (eapply Equal_body_cached; eauto).
    simpl. rewrite Ha, Hs, String.eqb_refl, (compare_generated _ _ _ _ _ Hg).
    reflexivity.
  - destruct (bcrypt.GenerateFromPassword (bytes_of (SecretKey cred)) bcrypt.DefaultCost
                (hasher s)) as [[h e] t] eqn:Hg'.
    pose proof (generate_no_error _ _ _ _ _ Hg') as ->.
    eexists. erewrite Equal_of_body by (eapply Equal_body_fresh; eauto).
    simpl. rewrite Ha, Hs, String.eqb_refl.
    rewrite <- Hs at 1. rewrite Hs, (compare_generated _ _ _ _ _ Hg'). reflexivity.
Qed.

(** X4. Create, then authenticate: a credential that
    [createCredentialWithExpiry] returned without error accepts, at any
    later time, every candidate that carries the two keys it was made
    from, whatever the candidate's expiry and hash. *)
Theorem created_credential_accepts
    (accessKey secretKey : string) (expiry : Time) (s : State B)
    (cred : credential) (s1 : State B) (cand : credential) (s2 : State B) :
  createCredentialWithExpiry accessKey secretKey expiry s = Returned ((cred, None), s1) ->
  AccessKey cand = accessKey ->
  SecretKey cand = secretKey ->
  exists s3, Equal cred cand s2 = Returned (true, s3).
Proof.
  intros H Ha Hs.
  pose proof (create_returns_keys _ _ _ _ _ _ H) as (Hka & Hks & _).
  pose proof (create_returns_own_hash _ _ _ _ _ _ H) as (Hv & Hg).
  eapply own_hash_accepts; eauto; congruence.
Qed.

(** X10. Generate, then authenticate: a credential that
    [getNewCredentialWithExpiry] returned without error accepts every
    candidate that carries its two keys. *)
Theorem generated_credential_accepts
    (expiry : Time) (s : State B) (cred : credential) (s1 : State B)
    (cand : credential) (s2 : State B) :
  getNewCredentialWithExpiry expiry s = Returned ((cred, None), s1) ->
  AccessKey cand = AccessKey cred ->
  SecretKey cand = SecretKey cred ->
  exists s3, Equal cred cand s2 = Returned (true, s3).
Proof.
  intros H Ha Hs.
  apply getNewCredentialWithExpiry_success_inv in H as [_ H].
  pose proof (create_returns_own_hash _ _ _ _ _ _ H) as (Hv & Hg).
  eapply own_hash_accepts; eauto.
Qed.

(** X12. The lazy hash is transparent: a receiver without stored hash and
    the same receiver with bcrypt's hash of its secret key stored give the
    same answer on every candidate. *)
Theorem Equal_cache_transparent
    (cred credB : credential) (h : option (list byte)) (s : State B) st st' :
  secretKeyHash cred = None ->
  bcrypt.GenerateFromPassword (bytes_of (SecretKey cred)) bcrypt.DefaultCost st
    = ((h, None), st') ->
  exists r s1 s2,
    Equal cred credB s = Returned (r, s1) /\
    Equal (set_secretKeyHash cred h) credB s = Returned (r, s2).
Proof.
  intros Hh Hg.
  destruct (IsValid credB) eqn:Hv.
  - destruct (bcrypt.GenerateFromPassword (bytes_of (SecretKey cred)) bcrypt.DefaultCost
                (hasher s)) as [[h1 e] t] eqn:Hg1.
    pose proof (generate_no_error _ _ _ _ _ Hg1) as ->.
    pose proof (Equal_of_body _ _ _ _ _ (Equal_body_fresh cred credB s h1 t Hv Hh Hg1))
      as H1.
    destruct h as [h0|].
    + pose proof (Equal_of_body _ _ _ _ _
                    (Equal_body_cached (set_secretKeyHash cred (Some h0)) credB h0 s
                       Hv eq_refl)) as H2.
      simpl in H1, H2.
      rewrite (compare_any_salt _ (bytes_of (SecretKey credB)) _ _ _ _ _ _ _ Hg1 Hg) in H1.
      eexists _, _, _. split; eassumption.
    + assert (set_secretKeyHash cred None = cred) as ->
        by (unfold set_secretKeyHash; rewrite <- Hh; now destruct cred).
      eexists _, _, _. split; eassumption.
  - pose proof (Equal_of_body _ _ _ _ _ (Equal_body_invalid cred credB s Hv)) as H1.
    pose proof (Equal_of_body _ _ _ _ _
                  (Equal_body_invalid (set_secretKeyHash cred h) credB s Hv)) as H2.
    eexists _, _, _. split; eassumption.
Qed.

End MoreWithWorkingBcrypt.

End MoreCredentialFacts.

(** X9. The access-key alphabet is not hit evenly: of the 256 values of a
    random byte, 8 give each of the first four characters of
    [alphaNumericTable] and 7 give each of the other 32, so every
    character of the table can occur. *)
Theorem alphaNumeric_bias (i : nat) (c : byte) :
  bytes_of alphaNumericTable !! i = Some c ->
  length (List.filter (fun x => bool_decide (alphaNumeric x = c)) all_bytes)
  = (if i <? 4 then 8 else 7) /\
  (forall x, In x all_bytes) /\ NoDup all_bytes.
Proof.
  intros Hc. split; [|split; [apply all_bytes_complete | apply all_bytes_NoDup]].
  do 36 (destruct i as [|i]; [injection Hc as <-; vm_compute; reflexivity|]).
  discriminate.
Qed.

(** ** The further properties run on the stand-in for bcrypt *)


Lemma validation_before_hashing_witness :
  (exists cred err,
     createCredentialWithExpiry "minio" "short" zeroTime (toy.state0 [])
     = Returned ((cred, Some err), toy.state0 [])) /\
  (exists r, Equal minio_hashed minio (toy.state0 []) = Returned (r, toy.state0 [])).
Proof.
  destruct (validation_before_hashing (toy.state0 [])) as [Hcreate Hequal]. split.
  - apply Hcreate. reflexivity.
  - apply Hequal. right. discriminate.
Defined.

Lemma Equal_reads_witness :
  Equal minio_hashed minio (toy.state0 [])
  = Equal (set_Expiry minio_hashed (mkTime 1 0)) minio_hashed (toy.state0 []).
Proof.
  apply Equal_reads; reflexivity.
Defined.

Lemma created_credential_accepts_witness :
  exists s3, Equal minio_hashed minio (toy.state0 []) = Returned (true, s3).
Proof.
  apply (created_credential_accepts (BL := toy_laws) "minio" "minio123" zeroTime
           (toy.state0 []) minio_hashed (@mkState toy.lib [] 1 []) minio (toy.state0 []));
    reflexivity.
Defined.

Lemma getNewCredentialWithExpiry_error_zero_witness :
  exists err s',
    getNewCredentialWithExpiry zeroTime (toy.state0 (take 30 sixty_bytes))
    = Returned ((credential_zero, Some err), s') /\
    (credential_zero = credential_zero /\ IsValid credential_zero = false).
Proof.
  eexists _, _. split.
  - vm_compute. reflexivity.
  - eapply (getNewCredentialWithExpiry_error_zero zeroTime
              (toy.state0 (take 30 sixty_bytes))).
    vm_compute. reflexivity.
Defined.


Lemma generated_secret_key_alphabet_witness :
  exists cred s',
    getNewCredentialWithExpiry zeroTime (toy.state0 sixty_bytes)
    = Returned ((cred, None), s') /\
    ~ In base64.StdPadding (bytes_of (SecretKey cred)).
Proof.
  eexists _, _. split.
  - vm_compute. reflexivity.
  - eapply (generated_secret_key_alphabet zeroTime (toy.state0 sixty_bytes)).
    vm_compute. reflexivity.
Defined.

Lemma alphaNumeric_bias_witness :
  length (List.filter (fun x => bool_decide (alphaNumeric x = "3"%byte)) all_bytes) = 8 /\
  length (List.filter (fun x => bool_decide (alphaNumeric x = "4"%byte)) all_bytes) = 7.
Proof.
  split.
  - apply (alphaNumeric_bias 3 "3"%byte). reflexivity.
  - apply (alphaNumeric_bias 4 "4"%byte). reflexivity.
Defined.

Lemma generated_credential_accepts_witness :
  exists cred s1 s3,
    getNewCredentialWithExpiry zeroTime (toy.state0 sixty_bytes)
    = Returned ((cred, None), s1) /\
    Equal cred (set_secretKeyHash cred None) s1 = Returned (true, s3).
Proof.
  eexists _, _.
  assert (forall (A : Type) (P : A -> Prop) (Q : Prop), Q -> (exists x, P x) ->
          exists x, Q /\ P x) as Hex by (intros A P Q q [x p]; eauto).
  apply Hex.
  - vm_compute. reflexivity.
  - eapply (generated_credential_accepts (BL := toy_laws) zeroTime
              (toy.state0 sixty_bytes)); [vm_compute; reflexivity | reflexivity..].
Defined.

Lemma generation_short_of_entropy_witness :
  mustGetNewCredential zeroTime (toy.state0 (take 30 sixty_bytes))
  = Exited "Unable to generate new credential." /\
  getNewCredentialWithExpiry zeroTime (toy.state0 (take 10 sixty_bytes))
  = Exited "Unable to generate access key.".
Proof.
  split.
  - apply (generation_short_of_entropy zeroTime zeroTime
             (toy.state0 (take 30 sixty_bytes))).
    vm_compute. lia.
  - apply (generation_short_of_entropy zeroTime zeroTime
             (toy.state0 (take 10 sixty_bytes))).
    vm_compute. lia.
Defined.

Lemma Equal_cache_transparent_witness :
  exists r s1 s2,
    Equal minio minio_hashed (toy.state0 []) = Returned (r, s1) /\
    Equal minio_hashed minio_hashed (toy.state0 []) = Returned (r, s2).
Proof.
  exact (Equal_cache_transparent (BL := toy_laws) minio minio_hashed
           (Some (toy.salt_of 0 :: bytes_of "minio123")) (toy.state0 []) 0 1
           eq_refl eq_refl).
Defined.
